(** * friend-reminder: the contact API (server) and the reminder
    checker and display order (client), shallowly embedded.

    Server: [src/server/tests/friendContact.spec.ts], lines 130-234
    (the express router).  Client: [src/client/src/App.tsx]. *)

From Stdlib Require Import ZArith Lia String Ascii.
From stdpp Require Import base list strings pretty sorting gmap.

Set Warnings "-register-all".
Open Scope string_scope.
Open Scope list_scope.

(** ** JSON values and JavaScript objects *)

(** A value as [JSON.parse] produces it.  Numbers are kept as integers:
    no claim depends on fractional numbers. *)
Inductive json : Type :=
| JNull
| JBool (b : bool)
| JNum (n : Z)
| JStr (s : string)
| JArr (l : list json)
| JObj (o : list (string * json)).

(** A plain JavaScript object: its own properties in insertion order. *)
Abbreviation obj := (list (string * json)).

(** Property read [o.k]: [None] is [undefined]. *)
Fixpoint lookup_key (o : obj) (k : string) : option json :=
  match o with
  | [] => None
  | (k', v) :: o' => if String.eqb k' k then Some v else lookup_key o' k
  end.

(** Property write [o[k] = v] (CreateDataProperty): an existing property
    keeps its position, a new one is appended. *)
Fixpoint obj_set (o : obj) (k : string) (v : json) : obj :=
  match o with
  | [] => [(k, v)]
  | (k', v') :: o' =>
      if String.eqb k' k then (k', v) :: o' else (k', v') :: obj_set o' k v
  end.

(** [{...t, ...s}]: copy the own properties of [s] into [t], in order. *)
Definition spread (t s : obj) : obj :=
  fold_left (fun acc kv => obj_set acc kv.1 kv.2) s t.

(** [Array.isArray(v)] for a property read. *)
Definition is_array (v : option json) : bool :=
  match v with Some (JArr _) => true | _ => false end.

(** [{...v}] for a value that is not known to be an object: the own
    enumerable properties of [v].  Strings spread their characters and
    arrays their elements under index keys; other primitives give [{}]. *)
Definition spread_value (v : json) : obj :=
  match v with
  | JObj o => spread [] o
  | JArr l => spread [] (imap (fun i x => (pretty (N.of_nat i), x)) l)
  | JStr s => spread [] (imap (fun i a => (pretty (N.of_nat i), JStr (String a EmptyString)))
                            (String.list_ascii_of_string s))
  | _ => []
  end.

(** ** The store *)

(** The data file holds [JSON.stringify(contacts)]; we keep it parsed. *)
Abbreviation file := json.

(** [loadContacts]: [JSON.parse(data).map(c => ({...c, notes: Array.isArray(c.notes) ? c.notes : []}))].
    Reading [c.notes] throws on a [null] element ([None]); on the other
    primitives it reads [undefined]. *)
Definition normalize (c : json) : option obj :=
  match c with
  | JNull => None
  | _ =>
      Some (obj_set (spread_value c) "notes"
              (match c with
               | JObj co => if is_array (lookup_key co "notes")
                            then default (JArr []) (lookup_key co "notes") else JArr []
               | _ => JArr []
               end))
  end.

(** [l.map(normalize)]: the first element that throws aborts the map. *)
Fixpoint normalize_all (l : list json) : option (list obj) :=
  match l with
  | [] => Some []
  | c :: l' =>
      match normalize c with
      | None => None
      | Some o => match normalize_all l' with Some os => Some (o :: os) | None => None end
      end
  end.

(** [.map] on a parsed value that is not an array throws ([None]). *)
Definition loadContacts (f : file) : option (list obj) :=
  match f with
  | JArr l => normalize_all l
  | _ => None
  end.

(** [saveContacts]: [JSON.stringify(contacts)] written back. *)
Definition saveContacts (cs : list obj) : file := JArr (map JObj cs).

(** [c.id === id] for the route parameter [id]. *)
Definition id_is (id : string) (c : obj) : bool :=
  match lookup_key c "id" with
  | Some (JStr s) => String.eqb s id
  | _ => false
  end.

(** The HTTP responses of the router. *)
Inductive response : Type :=
| Ok200 (body : json)
| Created201 (body : json)
| NotFound404
| Error500.

(** [GET /]. *)
Definition listContacts (f : file) : response :=
  match loadContacts f with
  | Some cs => Ok200 (JArr (map JObj cs))
  | None => Error500
  end.

(** [POST /] at time [now] ([Date.now()]): the new contact is
    [{id: Date.now().toString(), ...req.body, notes: ...}]. *)
Definition createContact (now : N) (body : obj) (f : file) : response * file :=
  match loadContacts f with
  | None => (Error500, f)
  | Some cs =>
      let newContact :=
        obj_set (spread [("id", JStr (pretty now))] body) "notes"
          (if is_array (lookup_key body "notes")
           then default (JArr []) (lookup_key body "notes") else JArr []) in
      (Created201 (JObj [("contact", JObj newContact)]), saveContacts (cs ++ [newContact]))
  end.

(** [contacts.findIndex(c => c.id === id)]. *)
Fixpoint find_index {A} (p : A -> bool) (l : list A) : option nat :=
  match l with
  | [] => None
  | x :: l' => if p x then Some 0 else S <$> find_index p l'
  end.

(** The merged record [{...old, ...req.body, notes: ...}].  A loaded
    contact always has [notes], so the default of [old.notes] is never
    taken. *)
Definition merge (old body : obj) : obj :=
  obj_set (spread (spread [] old) body) "notes"
    (if is_array (lookup_key body "notes")
     then default (JArr []) (lookup_key body "notes")
     else default (JArr []) (lookup_key old "notes")).

(** [PUT /:id]. *)
Definition updateContact (id : string) (body : obj) (f : file) : response * file :=
  match loadContacts f with
  | None => (Error500, f)
  | Some cs =>
      match find_index (id_is id) cs with
      | None => (NotFound404, f)
      | Some idx =>
          match cs !! idx with
          | None => (NotFound404, f)
          | Some old =>
              let updated := merge old body in
              (Ok200 (JObj [("contact", JObj updated)]), saveContacts (<[idx := updated]> cs))
          end
      end
  end.

(** [DELETE /:id]. *)
Definition deleteContact (id : string) (f : file) : response * file :=
  match loadContacts f with
  | None => (Error500, f)
  | Some cs =>
      (Ok200 (JObj [("message", JStr "Deleted")]),
       saveContacts (List.filter (fun c => negb (id_is id c)) cs))
  end.

(** The contact carried by a [{contact: ...}] response. *)
Definition response_contact (r : response) : option obj :=
  match r with
  | Ok200 (JObj [("contact", JObj c)]) | Created201 (JObj [("contact", JObj c)]) => Some c
  | _ => None
  end.

(** Distinct property names: what [JSON.parse] yields for an object. *)
Definition keys_distinct (o : obj) : Prop := NoDup (map fst o).

(** What every loaded contact looks like: distinct keys and an array under
    [notes]. *)
Definition normalized (c : obj) : Prop :=
  keys_distinct c /\ is_array (lookup_key c "notes") = true.

(** ** The client ([App.tsx]) *)

Record ContactNote := { content : string; date : string; time : string }.

(** [ContactData]; [id?: string] is optional. *)
Record ContactData := {
  id : option string;
  name : string;
  contactPoint : string;
  contactDetail : string;
  notes : list ContactNote;
  dateCreated : string;
  remindDate : string;
  remindTime : string }.

(** The host's [new Date(s).getTime()] is passed around as a function
    [date_ms : string -> option Z]; [None] is an Invalid Date ([NaN]).
    For concrete runs we use the ECMAScript date-time format
    [YYYY-MM-DDTHH:mm] / [YYYY-MM-DDTHH:mm:ss] read as local time in a
    zone with the constant offset [tza] (milliseconds east of UTC). *)
Section DateFormat.
Local Open Scope Z_scope.

Definition digit (a : ascii) : option Z :=
  let n := Z.of_nat (nat_of_ascii a) - 48 in
  if (0 <=? n) && (n <? 10) then Some n else None.

Fixpoint digits (l : list ascii) : option Z :=
  match l with
  | [] => Some 0
  | a :: l' =>
      match digit a, digits l' with
      | Some d, Some r => Some (d * 10 ^ Z.of_nat (length l') + r)
      | _, _ => None
      end
  end.

Definition is_leap (y : Z) : bool :=
  (Z.rem y 4 =? 0) && negb (Z.rem y 100 =? 0) || (Z.rem y 400 =? 0).

Definition days_in_month (y m : Z) : Z :=
  if (m =? 2) then (if is_leap y then 29 else 28)
  else if (m =? 4) || (m =? 6) || (m =? 9) || (m =? 11) then 30 else 31.

(** Days since 1970-01-01 of a proleptic Gregorian date. *)
Definition days_from_civil (y m d : Z) : Z :=
  let y' := if m <=? 2 then y - 1 else y in
  let era := y' / 400 in
  let yoe := y' - era * 400 in
  let mp := if m >? 2 then m - 3 else m + 9 in
  let doy := (153 * mp + 2) / 5 + d - 1 in
  let doe := yoe * 365 + yoe / 4 - yoe / 100 + doy in
  era * 146097 + doe - 719468.

Definition make_time (tza y mo d h mi s : Z) : option Z :=
  if (1 <=? mo) && (mo <=? 12) && (1 <=? d) && (d <=? days_in_month y mo)
     && (h <=? 24) && (mi <=? 59) && (s <=? 59)
     && (negb (h =? 24) || ((mi =? 0) && (s =? 0)))
  then Some ((((days_from_civil y mo d * 24 + h) * 60 + mi) * 60 + s) * 1000 - tza)
  else None.

Definition iso_local_ms (tza : Z) (str : string) : option Z :=
  let sep a b := Ascii.eqb a b in
  match String.list_ascii_of_string str with
  | [y1; y2; y3; y4; c1; m1; m2; c2; d1; d2; t; h1; h2; c3; n1; n2] =>
      if sep c1 "-" && sep c2 "-" && sep t "T" && sep c3 ":" then
        match digits [y1; y2; y3; y4], digits [m1; m2], digits [d1; d2],
              digits [h1; h2], digits [n1; n2] with
        | Some y, Some mo, Some d, Some h, Some mi => make_time tza y mo d h mi 0
        | _, _, _, _, _ => None
        end
      else None
  | [y1; y2; y3; y4; c1; m1; m2; c2; d1; d2; t; h1; h2; c3; n1; n2; c4; s1; s2] =>
      if sep c1 "-" && sep c2 "-" && sep t "T" && sep c3 ":" && sep c4 ":" then
        match digits [y1; y2; y3; y4], digits [m1; m2], digits [d1; d2],
              digits [h1; h2], digits [n1; n2], digits [s1; s2] with
        | Some y, Some mo, Some d, Some h, Some mi, Some s => make_time tza y mo d h mi s
        | _, _, _, _, _, _ => None
        end
      else None
  | _ => None
  end%char.

End DateFormat.

Section Client.
Local Open Scope Z_scope.
Variable date_ms : string -> option Z.

(** [new Date(`${c.remindDate}T${c.remindTime}`).getTime()]. *)
Definition remindDateTime (c : ContactData) : option Z :=
  date_ms (remindDate c ++ "T" ++ remindTime c).

(** [diff >= 0 && diff < 60000] with [diff = remindDateTime - now];
    every comparison with [NaN] is false. *)
Definition due (now : Z) (c : ContactData) : bool :=
  match remindDateTime c with
  | Some t => (0 <=? t - now) && (t - now <? 60000)
  | None => false
  end.

(** The toastr message. *)
Definition reminder_text (c : ContactData) : string :=
  "Reminder: Contact " ++ name c ++ " via " ++ contactPoint c ++
  " (" ++ contactDetail c ++ ")".

(** One notification: the contact it is about and the text shown. *)
Definition notification := (ContactData * string)%type.

(** The body of the [setInterval] callback: [contacts.forEach(...)] against
    the [shownReminders] captured by the closure.  [!contact.id] holds for
    an absent id and for the empty string. *)
Fixpoint reminder_check (now : Z) (shown : gset string) (contacts : list ContactData)
    : list notification :=
  match contacts with
  | [] => []
  | c :: cs =>
      let rest := reminder_check now shown cs in
      match id c with
      | Some s =>
          if negb (String.eqb s "") && due now c && negb (bool_decide (s ∈ shown))
          then (c, reminder_text c) :: rest else rest
      | None => rest
      end
  end.

(** The ids the tick adds with [setShownReminders(prev => new Set(prev).add(id))]. *)
Definition fired_ids (out : list notification) : gset string :=
  list_to_set (omap (fun n => id n.1) out).

(** One tick at time [now]: the notifications and the next [shownReminders]. *)
Definition tick (now : Z) (contacts : list ContactData) (shown : gset string)
    : list notification * gset string :=
  let out := reminder_check now shown contacts in
  (out, fired_ids out ∪ shown).

(** A session: successive ticks, each at its own time and against the
    contact list current at that tick (edits, adds and deletes between
    ticks are arbitrary). *)
Fixpoint run (ticks : list (Z * list ContactData)) (shown : gset string)
    : list notification :=
  match ticks with
  | [] => []
  | (now, contacts) :: ts =>
      let '(out, shown') := tick now contacts shown in
      out ++ run ts shown'
  end.

(** The display comparator after [SortCompare]: [NaN] counts as [+0]. *)
Definition display_compare (a b : ContactData) : Z :=
  match remindDateTime a, remindDateTime b with
  | Some x, Some y => x - y
  | _, _ => 0
  end.

(** The comparator returns [NaN] on a contact whose timestamp is invalid;
    it is a consistent comparator exactly when none is. *)
Definition all_timestamps_valid (l : list ContactData) : bool :=
  forallb (fun c => bool_decide (is_Some (remindDateTime c))) l.

(** [[...contacts].sort(cmp)] as ECMAScript specifies [Array.prototype.sort]:
    the result is a permutation; when the comparator is consistent it is
    sorted by it (it is also stable, which no claim uses); otherwise the
    order is implementation-defined. *)
Definition sort_permitted (l l' : list ContactData) : Prop :=
  Permutation l l' /\
  (all_timestamps_valid l = true ->
   StronglySorted (fun a b => display_compare a b <= 0) l').

(** The display property of C9: whenever two listed contacts have valid
    reminder timestamps [t1 < t2], the [t1] one is listed first. *)
Definition ordered_by_reminder (l : list ContactData) : Prop :=
  forall i j c1 c2 t1 t2,
    l !! i = Some c1 -> l !! j = Some c2 ->
    remindDateTime c1 = Some t1 -> remindDateTime c2 = Some t2 -> t1 < t2 ->
    (i < j)%nat.

End Client.

(** How many notifications of [out] are about the contact id [s]. *)
Definition count_for (s : string) (out : list notification) : nat :=
  length (List.filter (fun n => bool_decide (id n.1 = Some s)) out).

(** [fetchContacts] in [App.tsx]: the [GET] response body, each record
    given an array under [notes]; a failed response ([!res.ok]) or a body
    that is not an array throws, and so does a [null] element ([c.notes]);
    the cache then keeps its value ([None]). *)
Definition fetchContacts (r : response) : option (list obj) :=
  match r with
  | Ok200 (JArr l) => normalize_all l
  | _ => None
  end.

(** [handleUpdateContact]: [prev.map(c => c.id === contact.id ? contact : c)];
    two absent ids compare equal ([undefined === undefined]). *)
Definition handleUpdateContact (contact : ContactData) (prev : list ContactData)
    : list ContactData :=
  map (fun c => if bool_decide (id c = id contact) then contact else c) prev.

(** Ids the client can put in a request path and the router sees
    verbatim as [req.params.id]: non-empty, and made of letters, digits,
    '-', '_' and '~', which URL parsing neither encodes nor resolves (no
    '/', '?', '#', '%', dot segment or space) and [decodeURIComponent]
    leaves alone. *)
Definition url_char (a : ascii) : bool :=
  let n := Ascii.nat_of_ascii a in
  (((48 <=? n) && (n <=? 57)) || ((65 <=? n) && (n <=? 90)) || ((97 <=? n) && (n <=? 122)) ||
   (n =? 45) || (n =? 95) || (n =? 126))%nat.

Definition url_safe (s : string) : bool :=
  negb (String.eqb s "") && forallb url_char (String.list_ascii_of_string s).



(** [handleNewNote] on the wire, for a contact object as the client holds it
    (its [notes] an array, as [fetchContacts] ensures): the body
    [{...contact, notes: [...contact.notes, note]}] is sent with
    [PUT /api/friend-contacts/${contact.id}], and the result is the
    router's.  A contact without a string id or an array of notes lies
    outside [ContactData], and an id that does not reach the route
    verbatim is not modelled either ([None]). *)
Definition handleNewNote (contact : obj) (note : json) (f : file) : option (response * file) :=
  match lookup_key contact "id", lookup_key contact "notes" with
  | Some (JStr s), Some (JArr ns) =>
      if url_safe s
      then Some (updateContact s (obj_set (spread [] contact) "notes" (JArr (ns ++ [note]))) f)
      else None
  | _, _ => None
  end.

(** JavaScript truthiness of a JSON value ([NaN] and [-0] do not occur). *)
Definition truthy (v : json) : bool :=
  match v with
  | JNull => false
  | JBool b => b
  | JNum z => negb (Z.eqb z 0)
  | JStr s => negb (String.eqb s "")
  | JArr _ | JObj _ => true
  end.

(** The properties a plain object inherits from [Object.prototype]; all
    are functions or objects, hence truthy. *)
Definition proto_member (k : string) : bool :=
  bool_decide (k ∈ ["constructor"; "__defineGetter__"; "__defineSetter__"; "hasOwnProperty";
                    "__lookupGetter__"; "__lookupSetter__"; "isPrototypeOf";
                    "propertyIsEnumerable"; "toString"; "valueOf"; "__proto__";
                    "toLocaleString"]).

(** Whether [noteForms[id]] is truthy, i.e. the note form of [id] is open:
    an own property, else an inherited one, else [undefined]. *)
Definition form_open (forms : obj) (k : string) : bool :=
  match lookup_key forms k with
  | Some v => truthy v
  | None => proto_member k
  end.

(** [toggleNoteForm]: [{ ...prev, [id]: !prev[id] }]. *)
Definition toggleNoteForm (i : string) (prev : obj) : obj :=
  obj_set (spread [] prev) i (JBool (negb (form_open prev i))).

(** The file a successful write leaves: an array of records, each with an
    array under [notes]. *)
Definition stored_notes_arrays (f : file) : Prop :=
  exists l, f = JArr l /\
    Forall (fun j => exists c, j = JObj c /\ is_array (lookup_key c "notes") = true) l.

(** ** Object lemmas *)

Lemma lookup_obj_set_eq o k v : lookup_key (obj_set o k v) k = Some v.
Proof.
  induction o as [|[k' v'] o IH]; simpl.
  - by rewrite String.eqb_refl.
  - destruct (String.eqb_spec k' k) as [->|Hne]; simpl.
    + by rewrite String.eqb_refl.
    + apply String.eqb_neq in Hne. by rewrite Hne.
Qed.

Lemma lookup_obj_set_ne o k k' v :
  k <> k' -> lookup_key (obj_set o k v) k' = lookup_key o k'.
Proof.
  intros Hk. induction o as [|[k0 v0] o IH]; simpl.
  - apply String.eqb_neq in Hk. by rewrite Hk.
  - destruct (String.eqb_spec k0 k) as [->|Hne]; simpl.
    + apply String.eqb_neq in Hk. by rewrite Hk.
    + by rewrite IH.
Qed.

Lemma lookup_obj_set o k k' v :
  lookup_key (obj_set o k v) k' = if String.eqb k k' then Some v else lookup_key o k'.
Proof.
  destruct (String.eqb_spec k k') as [->|Hne].
  - apply lookup_obj_set_eq.
  - by apply lookup_obj_set_ne.
Qed.

Lemma obj_set_same o k v : lookup_key o k = Some v -> obj_set o k v = o.
Proof.
  induction o as [|[k0 v0] o IH]; simpl; [done|].
  destruct (String.eqb_spec k0 k) as [->|Hne].
  - by intros [= ->].
  - intros H. by rewrite IH.
Qed.

Lemma lookup_key_None o k : lookup_key o k = None <-> k ∉ map fst o.
Proof.
  induction o as [|[k0 v0] o IH]; simpl.
  - split; [intros _; apply not_elem_of_nil|done].
  - rewrite elem_of_cons. destruct (String.eqb_spec k0 k) as [->|Hne].
    + split; [done|]. intros H. exfalso. auto.
    + rewrite IH. naive_solver.
Qed.

Lemma obj_set_fresh o k v : k ∉ map fst o -> obj_set o k v = o ++ [(k, v)].
Proof.
  induction o as [|[k0 v0] o IH]; simpl; [done|].
  rewrite elem_of_cons. intros Hk.
  destruct (String.eqb_spec k0 k) as [->|Hne]; [naive_solver|].
  rewrite IH; naive_solver.
Qed.

Lemma keys_obj_set o k v :
  map fst (obj_set o k v) = if decide (k ∈ map fst o) then map fst o else map fst o ++ [k].
Proof.
  induction o as [|[k0 v0] o IH]; cbn [obj_set map fst].
  - case_decide as Hin; [by apply not_elem_of_nil in Hin|reflexivity].
  - destruct (String.eqb_spec k0 k) as [->|Hne]; cbn [map fst].
    + rewrite decide_True; [reflexivity|]. apply list_elem_of_here.
    + rewrite IH. case_decide as Hin; case_decide as Hin'; try reflexivity.
      * exfalso. apply Hin', list_elem_of_further, Hin.
      * apply elem_of_cons in Hin' as [->|?]; [done|]. done.
Qed.

Lemma obj_set_distinct o k v : keys_distinct o -> keys_distinct (obj_set o k v).
Proof.
  unfold keys_distinct. rewrite keys_obj_set.
  destruct (decide _) as [Hin|Hin]; [done|].
  intros Hnd. apply NoDup_app. split; [done|]. split; [|apply NoDup_singleton].
  intros x Hx ->%list_elem_of_singleton. done.
Qed.

Lemma spread_distinct t s : keys_distinct t -> keys_distinct (spread t s).
Proof.
  revert t. induction s as [|[k v] s IH]; intros t Ht; simpl; [done|].
  apply IH, obj_set_distinct, Ht.
Qed.

Lemma spread_app_distinct t s :
  keys_distinct (t ++ s) -> spread t s = t ++ s.
Proof.
  revert t. induction s as [|[k v] s IH]; intros t Ht; simpl.
  - by rewrite app_nil_r.
  - unfold keys_distinct in Ht. rewrite map_app in Ht. simpl in Ht.
    apply NoDup_app in Ht as (Ht & Hdisj & Hs).
    rewrite obj_set_fresh.
    2:{ intros Hin. eapply Hdisj; [done|]. apply list_elem_of_here. }
    rewrite IH; [by rewrite <- app_assoc|].
    unfold keys_distinct. rewrite map_app, map_app. simpl.
    rewrite <- app_assoc. simpl. apply NoDup_app. split; [done|]. split; [|done].
    done.
Qed.

Lemma spread_nil_distinct o : keys_distinct o -> spread [] o = o.
Proof. intros H. by apply spread_app_distinct. Qed.

Lemma obj_set_twice o k v w : obj_set (obj_set o k v) k w = obj_set o k w.
Proof.
  induction o as [|[k0 v0] o IH]; simpl.
  - by rewrite String.eqb_refl.
  - destruct (String.eqb_spec k0 k) as [->|Hne]; simpl.
    + by rewrite String.eqb_refl.
    + apply String.eqb_neq in Hne. by rewrite Hne, IH.
Qed.

(** Reading a property after a spread of an object with distinct keys:
    the source wins over the target. *)
Lemma lookup_spread t s k :
  keys_distinct s ->
  lookup_key (spread t s) k =
    match lookup_key s k with Some v => Some v | None => lookup_key t k end.
Proof.
  unfold keys_distinct. revert t.
  induction s as [|[k0 v0] s IH]; intros t Hs; simpl in *; [done|].
  apply NoDup_cons in Hs as [Hk0 Hs]. rewrite IH by done.
  destruct (String.eqb_spec k0 k) as [->|Hne].
  - apply lookup_key_None in Hk0. rewrite Hk0. apply lookup_obj_set_eq.
  - destruct (lookup_key s k); [done|]. by apply lookup_obj_set_ne.
Qed.

(** ** Shape of the stored contacts *)

Lemma spread_value_distinct v : keys_distinct (spread_value v).
Proof.
  destruct v; simpl; try apply spread_distinct; constructor.
Qed.

Lemma normalize_normalized v o : normalize v = Some o -> normalized o.
Proof.
  intros H.
  assert (Ho : exists w, o = obj_set (spread_value v) "notes" w /\ is_array (Some w) = true).
  { destruct v as [| | | | |co]; try discriminate; injection H as <-;
      eexists; (split; [reflexivity|]); try reflexivity.
    destruct (lookup_key co "notes") as [[]|]; reflexivity. }
  destruct Ho as (w & -> & Hw). split; [apply obj_set_distinct, spread_value_distinct|].
  by rewrite lookup_obj_set_eq.
Qed.

Lemma normalize_of_normalized c : normalized c -> normalize (JObj c) = Some c.
Proof.
  intros [Hd Ha]. unfold normalize. simpl. rewrite spread_nil_distinct by done.
  destruct (lookup_key c "notes") as [[]|] eqn:E; try done. simpl.
  by rewrite obj_set_same.
Qed.

Lemma normalize_all_normalized l cs : normalize_all l = Some cs -> Forall normalized cs.
Proof.
  revert cs. induction l as [|v l IH]; intros cs; simpl; [intros [= <-]; constructor|].
  destruct (normalize v) as [o|] eqn:Eo; [|done].
  destruct (normalize_all l) as [os|]; [|done]. intros [= <-].
  constructor; [by eapply normalize_normalized|by apply IH].
Qed.

Lemma normalize_all_JObj cs : Forall normalized cs -> normalize_all (map JObj cs) = Some cs.
Proof.
  induction 1 as [|c cs Hc H IH]; cbn [map normalize_all]; [done|].
  by rewrite normalize_of_normalized, IH.
Qed.

Lemma load_normalized f cs : loadContacts f = Some cs -> Forall normalized cs.
Proof. destruct f; try done. apply normalize_all_normalized. Qed.

Lemma load_save cs : Forall normalized cs -> loadContacts (saveContacts cs) = Some cs.
Proof. apply normalize_all_JObj. Qed.

Lemma find_index_None {A} (p : A -> bool) l :
  find_index p l = None <-> Forall (fun x => p x = false) l.
Proof.
  induction l as [|x l IH]; simpl; [split; auto|].
  rewrite Forall_cons. destruct (p x); [split; [done|intros []; done]|].
  rewrite <- IH. destruct (find_index p l); simpl; naive_solver.
Qed.

Lemma find_index_Some {A} (p : A -> bool) l i :
  find_index p l = Some i -> exists x, l !! i = Some x /\ p x = true.
Proof.
  revert i. induction l as [|x l IH]; intros i; simpl; [done|].
  destruct (p x) eqn:E; [intros [=<-]; by exists x|].
  destruct (find_index p l) as [j|] eqn:Ej; simpl; [|done].
  intros [=<-]. by apply IH.
Qed.

Lemma merge_notes old body :
  normalized old -> is_array (lookup_key (merge old body) "notes") = true.
Proof.
  intros [_ Ha]. unfold merge. rewrite lookup_obj_set_eq.
  destruct (lookup_key body "notes") as [[]|] eqn:E; simpl; try done;
  destruct (lookup_key old "notes") as [[]|]; done.
Qed.

Lemma merge_normalized old body : normalized old -> normalized (merge old body).
Proof.
  intros Hold. split; [|by apply merge_notes].
  apply obj_set_distinct, spread_distinct, spread_distinct. constructor.
Qed.

Lemma pretty_N_go_nonempty x s : s <> "" -> pretty_N_go x s <> "".
Proof.
  revert s. induction (N.lt_wf_0 x) as [x _ IH]; intros s Hs.
  destruct (decide (x = 0)%N) as [->|Hx]; [by rewrite pretty_N_go_0|].
  rewrite pretty_N_go_step by lia. apply IH; [apply N.div_lt; lia|done].
Qed.

Lemma pretty_N_nonempty (n : N) : pretty n <> "".
Proof.
  unfold pretty, pretty_N. case_decide; [done|].
  rewrite pretty_N_go_step by lia. by apply pretty_N_go_nonempty.
Qed.

Lemma normalized_lookup (cs : list obj) i c :
  Forall normalized cs -> cs !! i = Some c -> normalized c.
Proof. intros H Hi. by eapply Forall_lookup_1. Qed.

(** The merged record of a one-field patch. *)
Lemma merge_single old k v :
  normalized old ->
  merge old [(k, v)] =
    if String.eqb k "notes" && negb (is_array (Some v)) then old else obj_set old k v.
Proof.
  intros [Hd Ha]. unfold merge. rewrite spread_nil_distinct by done.
  unfold spread; simpl.
  destruct (lookup_key old "notes") as [[]|] eqn:En; try done. simpl.
  destruct (String.eqb k "notes") eqn:E; simpl.
  - apply String.eqb_eq in E as ->.
    destruct v; simpl; rewrite obj_set_twice; try by apply obj_set_same.
    done.
  - apply obj_set_same. rewrite lookup_obj_set_ne; [done|].
    intros ->. by rewrite String.eqb_refl in E.
Qed.

(** Reading [id] on a merged record. *)
Lemma merge_id old body :
  keys_distinct old -> keys_distinct body ->
  lookup_key (merge old body) "id" =
    match lookup_key body "id" with Some v => Some v | None => lookup_key old "id" end.
Proof.
  intros Ho Hb. unfold merge. rewrite lookup_obj_set_ne by done.
  rewrite lookup_spread by done. rewrite spread_nil_distinct by done.
  by destruct (lookup_key body "id").
Qed.

(** The record [POST /] builds, and what it stores. *)
Lemma create_spec now body f cs :
  keys_distinct body -> loadContacts f = Some cs ->
  exists c,
    createContact now body f =
      (Created201 (JObj [("contact", JObj c)]), saveContacts (cs ++ [c])) /\
    loadContacts (saveContacts (cs ++ [c])) = Some (cs ++ [c]) /\
    normalized c /\
    lookup_key c "id" =
      match lookup_key body "id" with Some v => Some v | None => Some (JStr (pretty now)) end.
Proof.
  intros Hb Hload. unfold createContact. rewrite Hload.
  eexists. split; [reflexivity|].
  assert (Hn : normalized
    (obj_set (spread [("id", JStr (pretty now))] body) "notes"
       (if is_array (lookup_key body "notes")
        then default (JArr []) (lookup_key body "notes") else JArr []))).
  { split.
    - apply obj_set_distinct, spread_distinct. apply NoDup_singleton.
    - rewrite lookup_obj_set_eq.
      by destruct (lookup_key body "notes") as [[]|]. }
  split; [|split; [done|]].
  - apply load_save. apply Forall_app. split; [|by apply Forall_singleton].
    by eapply load_normalized.
  - rewrite lookup_obj_set_ne by done. rewrite lookup_spread by done.
    by destruct (lookup_key body "id").
Qed.

(** The record [PUT /:id] builds for a located contact, and what it stores. *)
Lemma update_spec id body f cs idx old :
  loadContacts f = Some cs -> find_index (id_is id) cs = Some idx -> cs !! idx = Some old ->
  updateContact id body f =
    (Ok200 (JObj [("contact", JObj (merge old body))]),
     saveContacts (<[idx := merge old body]> cs)) /\
  loadContacts (saveContacts (<[idx := merge old body]> cs)) =
    Some (<[idx := merge old body]> cs) /\
  normalized old.
Proof.
  intros Hload Hfind Hold. unfold updateContact. rewrite Hload, Hfind, Hold.
  pose proof (load_normalized _ _ Hload) as Hall.
  assert (Hno : normalized old) by (by eapply normalized_lookup).
  split; [done|]. split; [|done].
  apply load_save, Forall_insert; [done|]. by apply merge_normalized.
Qed.

Lemma filter_idem {A} (p : A -> bool) (l : list A) :
  List.filter p (List.filter p l) = List.filter p l.
Proof.
  induction l as [|x l IH]; simpl; [done|].
  destruct (p x) eqn:E; simpl; [rewrite E; by f_equal|done].
Qed.

Lemma normalize_notes v o :
  normalize v = Some o ->
  lookup_key o "notes" =
    match v with
    | JObj co => if is_array (lookup_key co "notes") then lookup_key co "notes"
                 else Some (JArr [])
    | _ => Some (JArr [])
    end.
Proof.
  intros H.
  transitivity (lookup_key (obj_set (spread_value v) "notes"
    (match v with
     | JObj co => if is_array (lookup_key co "notes")
                  then default (JArr []) (lookup_key co "notes") else JArr []
     | _ => JArr []
     end)) "notes").
  - destruct v; try discriminate; injection H as <-; reflexivity.
  - rewrite lookup_obj_set_eq. destruct v as [| | | | |co]; try reflexivity.
    destruct (lookup_key co "notes") as [[]|]; reflexivity.
Qed.

Lemma normalize_all_Forall2 l cs :
  normalize_all l = Some cs -> Forall2 (fun v c => normalize v = Some c) l cs.
Proof.
  revert cs. induction l as [|v l IH]; intros cs; cbn [normalize_all].
  - intros [= <-]. constructor.
  - destruct (normalize v) as [o|] eqn:Eo; [|done].
    destruct (normalize_all l) as [os|]; [|done]. intros [= <-].
    constructor; [done|by apply IH].
Qed.

Lemma save_notes_arrays cs :
  Forall (fun c => is_array (lookup_key c "notes") = true) cs ->
  stored_notes_arrays (saveContacts cs).
Proof.
  intros H. exists (map JObj cs). split; [done|].
  apply Forall_fmap. eapply Forall_impl; [exact H|]. intros c Hc. by exists c.
Qed.

Lemma load_notes_arrays f cs :
  loadContacts f = Some cs -> Forall (fun c => is_array (lookup_key c "notes") = true) cs.
Proof.
  intros H. eapply Forall_impl; [by eapply load_normalized|]. by intros c [_ ?].
Qed.

(** * Claims *)

(** C1 (corrected): an [id] in the PUT body is copied over the stored
    one like any other field.  Here contact "1" is renamed to "2" by the
    patch [{id: "2"}], in the response and in the file. *)
Lemma update_patch_id_overwrites :
  updateContact "1" [("id", JStr "2")]
    (JArr [JObj [("id", JStr "1"); ("name", JStr "A"); ("notes", JArr [])]]) =
  (Ok200 (JObj [("contact", JObj [("id", JStr "2"); ("name", JStr "A"); ("notes", JArr [])])]),
   JArr [JObj [("id", JStr "2"); ("name", JStr "A"); ("notes", JArr [])]]).
Proof. reflexivity. Qed.

(** C1 (amended): after [PUT /:id] on a stored contact, the merged record,
    returned and persisted, has the id of the body when the body has an
    [id] field, and the stored contact's id otherwise. *)
Theorem update_id_source id body f cs idx old :
  keys_distinct body ->
  loadContacts f = Some cs -> find_index (id_is id) cs = Some idx -> cs !! idx = Some old ->
  exists upd f',
    updateContact id body f = (Ok200 (JObj [("contact", JObj upd)]), f') /\
    loadContacts f' = Some (<[idx := upd]> cs) /\
    lookup_key upd "id" =
      match lookup_key body "id" with Some v => Some v | None => lookup_key old "id" end.
Proof.
  intros Hb Hload Hfind Hold.
  destruct (update_spec id body f cs idx old Hload Hfind Hold) as (Heq & Hsave & [Hd _]).
  exists (merge old body), (saveContacts (<[idx := merge old body]> cs)).
  split; [done|]. split; [done|]. by apply merge_id.
Qed.

(** C2: a one-field patch [{k: v}] on a stored contact changes that field
    only (an existing field keeps its position, so the record is otherwise
    identical); a [notes] value that is not an array leaves the record as
    it was.  The rest of the stored sequence is unchanged. *)
Theorem update_single_field_frame id f cs idx old k v :
  loadContacts f = Some cs -> find_index (id_is id) cs = Some idx -> cs !! idx = Some old ->
  let upd := if String.eqb k "notes" && negb (is_array (Some v)) then old
             else obj_set old k v in
  updateContact id [(k, v)] f =
    (Ok200 (JObj [("contact", JObj upd)]), saveContacts (<[idx := upd]> cs)) /\
  loadContacts (saveContacts (<[idx := upd]> cs)) = Some (<[idx := upd]> cs) /\
  (forall k', k' <> k -> lookup_key upd k' = lookup_key old k').
Proof.
  intros Hload Hfind Hold upd.
  destruct (update_spec id [(k, v)] f cs idx old Hload Hfind Hold) as (Heq & Hsave & Hno).
  rewrite merge_single in Heq, Hsave by done.
  split; [done|]. split; [done|].
  intros k' Hk'. unfold upd. destruct (_ && _); [done|].
  by apply lookup_obj_set_ne.
Qed.

(** C3 (corrected): the id of a new contact need be neither fresh nor
    non-empty.  A body [{id: ""}] yields the empty id, a body [{id: "5"}]
    repeats a stored id, and so does the minted id when [Date.now()] is
    the time at which the stored contact was minted. *)
Lemma create_id_not_fresh :
  let f := JArr [JObj [("id", JStr "5"); ("notes", JArr [])]] in
  fst (createContact 7 [("id", JStr "")] f) =
    Created201 (JObj [("contact", JObj [("id", JStr ""); ("notes", JArr [])])]) /\
  fst (createContact 7 [("id", JStr "5")] f) =
    Created201 (JObj [("contact", JObj [("id", JStr "5"); ("notes", JArr [])])]) /\
  fst (createContact 5 [] f) =
    Created201 (JObj [("contact", JObj [("id", JStr "5"); ("notes", JArr [])])]).
Proof. vm_compute. repeat split. Qed.

(** C3 (amended): without an [id] in the body, the new contact's id is
    [Date.now().toString()], which is non-empty, and it differs from every
    stored id unless a stored contact already has exactly that id; with an
    [id] in the body, that value is the id.  The contact is appended to
    the stored sequence. *)
Theorem create_id_minted now body f cs :
  keys_distinct body -> loadContacts f = Some cs ->
  exists c f',
    createContact now body f = (Created201 (JObj [("contact", JObj c)]), f') /\
    loadContacts f' = Some (cs ++ [c]) /\
    lookup_key c "id" =
      match lookup_key body "id" with Some v => Some v | None => Some (JStr (pretty now)) end /\
    pretty now <> "" /\
    (lookup_key body "id" = None -> Forall (fun c' => id_is (pretty now) c' = false) cs ->
     Forall (fun c' => lookup_key c' "id" <> lookup_key c "id") cs).
Proof.
  intros Hb Hload.
  destruct (create_spec now body f cs Hb Hload) as (c & Heq & Hsave & _ & Hid).
  exists c, (saveContacts (cs ++ [c])).
  split; [done|]. split; [done|]. split; [done|]. split; [apply pretty_N_nonempty|].
  intros Hnone Hfresh. rewrite Hid, Hnone.
  eapply Forall_impl; [exact Hfresh|]. intros c' Hc' Heq'.
  unfold id_is in Hc'. rewrite Heq', String.eqb_refl in Hc'. done.
Qed.

(** C6: [PUT /:id] for an id that no stored contact has answers 404 and
    writes nothing. *)
Theorem update_missing_id id body f cs :
  loadContacts f = Some cs -> Forall (fun c => id_is id c = false) cs ->
  updateContact id body f = (NotFound404, f).
Proof.
  intros Hload Hnone. unfold updateContact. rewrite Hload.
  apply find_index_None in Hnone. by rewrite Hnone.
Qed.

(** C7: [DELETE /:id] never answers 404.  On a readable store it answers
    200, the stored sequence loses exactly the contacts with that id and
    keeps every other one in order, and a second [DELETE] of the same id
    answers 200 again and leaves the file as the first one left it. *)
Theorem delete_idempotent id f cs :
  loadContacts f = Some cs ->
  (forall id' f', fst (deleteContact id' f') <> NotFound404) /\
  let kept := List.filter (fun c => negb (id_is id c)) cs in
  deleteContact id f = (Ok200 (JObj [("message", JStr "Deleted")]), saveContacts kept) /\
  loadContacts (saveContacts kept) = Some kept /\
  Forall (fun c => id_is id c = false) kept /\
  (forall c, In c cs -> id_is id c = false -> In c kept) /\
  deleteContact id (saveContacts kept) =
    (Ok200 (JObj [("message", JStr "Deleted")]), saveContacts kept).
Proof.
  intros Hload. split.
  { intros id' f'. unfold deleteContact. by destruct (loadContacts f'). }
  intros kept.
  assert (Hsub : forall c, In c kept -> In c cs /\ id_is id c = false).
  { intros c Hc. apply filter_In in Hc as [Hc Hn]. split; [done|].
    by destruct (id_is id c). }
  assert (Hsave : loadContacts (saveContacts kept) = Some kept).
  { apply load_save, Forall_forall. intros c Hc%list_elem_of_In.
    apply Hsub in Hc as [Hc _]. apply list_elem_of_In in Hc.
    eapply Forall_forall; [|exact Hc]. by eapply load_normalized. }
  assert (Hgone : Forall (fun c => id_is id c = false) kept).
  { apply Forall_forall. intros c Hc%list_elem_of_In. by apply Hsub. }
  unfold deleteContact. rewrite Hload. split; [done|]. split; [done|].
  split; [done|]. split.
  - intros c Hc Hid. apply filter_In. rewrite Hid. done.
  - rewrite Hsave. unfold kept. by rewrite filter_idem.
Qed.

(** C8: [notes] is an array in every contact the API hands out or
    writes.  Loading keeps a record's [notes] when it is an array and
    makes it [[]] otherwise (missing, [null] or any other value); [GET /]
    lists records with array [notes]; [POST /] gives the body's [notes]
    when it is an array and [[]] otherwise; the record [PUT /:id] returns
    has array [notes]; and the file written by a successful [POST],
    [PUT] or [DELETE] holds records with array [notes] only. *)
Theorem notes_always_array :
  (forall l cs, loadContacts (JArr l) = Some cs ->
     Forall2 (fun v c =>
       lookup_key c "notes" =
         match v with
         | JObj co => if is_array (lookup_key co "notes") then lookup_key co "notes"
                      else Some (JArr [])
         | _ => Some (JArr [])
         end) l cs) /\
  (forall f, match listContacts f with
             | Ok200 (JArr l) =>
                 Forall (fun j => exists c, j = JObj c /\ is_array (lookup_key c "notes") = true) l
             | _ => True end) /\
  (forall now body f c, response_contact (fst (createContact now body f)) = Some c ->
     lookup_key c "notes" =
       (if is_array (lookup_key body "notes") then lookup_key body "notes"
        else Some (JArr [])) /\
     stored_notes_arrays (snd (createContact now body f))) /\
  (forall id body f c, response_contact (fst (updateContact id body f)) = Some c ->
     is_array (lookup_key c "notes") = true /\
     stored_notes_arrays (snd (updateContact id body f))) /\
  (forall id f, fst (deleteContact id f) <> Error500 ->
     stored_notes_arrays (snd (deleteContact id f))).
Proof.
  split; [|split; [|split; [|split]]].
  - intros l cs H. apply normalize_all_Forall2 in H.
    eapply Forall2_impl; [exact H|]. intros v c. apply normalize_notes.
  - intros f. unfold listContacts. destruct (loadContacts f) as [cs|] eqn:E; [|done].
    apply load_notes_arrays in E. apply Forall_fmap. eapply Forall_impl; [exact E|].
    intros c Hc. by exists c.
  - intros now body f c. unfold createContact.
    destruct (loadContacts f) as [cs|] eqn:E; [|discriminate].
    cbn [fst snd response_contact]. intros [= <-]. split.
    + rewrite lookup_obj_set_eq. by destruct (lookup_key body "notes") as [[]|].
    + apply save_notes_arrays, Forall_app. split; [by eapply load_notes_arrays|].
      apply Forall_singleton. rewrite lookup_obj_set_eq.
      by destruct (lookup_key body "notes") as [[]|].
  - intros id body f c. unfold updateContact.
    destruct (loadContacts f) as [cs|] eqn:E; [|discriminate].
    destruct (find_index (id_is id) cs) as [idx|]; [|discriminate].
    destruct (cs !! idx) as [old|] eqn:Eo; [|discriminate].
    cbn [fst snd response_contact]. intros [= <-].
    pose proof (load_normalized _ _ E) as Hall.
    assert (Hno : normalized old) by (by eapply normalized_lookup).
    split; [by apply merge_notes|].
    apply save_notes_arrays, Forall_insert; [by eapply load_notes_arrays|].
    by apply merge_notes.
  - intros id f. unfold deleteContact.
    destruct (loadContacts f) as [cs|] eqn:E; [|done]. intros _. cbn [snd].
    apply save_notes_arrays. apply load_notes_arrays in E.
    rewrite Forall_forall in E. apply Forall_forall. intros c Hc%list_elem_of_In.
    apply filter_In in Hc as [Hc _]. apply E. by apply list_elem_of_In.
Qed.

(** C10: a body with an [id] field gives the new contact that id, in the
    response and in the file, instead of the minted one. *)
Theorem create_body_id_kept now body f cs v :
  keys_distinct body -> loadContacts f = Some cs -> lookup_key body "id" = Some v ->
  exists c f',
    createContact now body f = (Created201 (JObj [("contact", JObj c)]), f') /\
    loadContacts f' = Some (cs ++ [c]) /\
    lookup_key c "id" = Some v.
Proof.
  intros Hb Hload Hv.
  destruct (create_spec now body f cs Hb Hload) as (c & Heq & Hsave & _ & Hid).
  exists c, (saveContacts (cs ++ [c])). rewrite Hv in Hid. done.
Qed.

(** ** Client lemmas *)

Section ClientLemmas.
Variable date_ms : string -> option Z.

Lemma reminder_check_sound now shown cs n :
  In n (reminder_check date_ms now shown cs) ->
  exists s, id n.1 = Some s /\ s <> "" /\ (s ∉ shown) /\
    due date_ms now n.1 = true /\ In n.1 cs /\ n.2 = reminder_text n.1.
Proof.
  induction cs as [|c cs IH]; simpl; [done|].
  destruct (id c) as [s|] eqn:Ei.
  2:{ intros Hn. destruct (IH Hn) as (s & ?). exists s. naive_solver. }
  destruct (negb (String.eqb s "") && due date_ms now c && negb (bool_decide (s ∈ shown)))
    eqn:Eb.
  - intros [<-|Hn].
    + apply andb_prop in Eb as [Eb Hsh]. apply andb_prop in Eb as [Hne Hdue].
      exists s. simpl. split; [done|]. split.
      { intros ->. done. }
      split; [by apply negb_true_iff, bool_decide_eq_false in Hsh|]. auto.
    + destruct (IH Hn) as (s' & ?). exists s'. naive_solver.
  - intros Hn. destruct (IH Hn) as (s' & ?). exists s'. naive_solver.
Qed.

Lemma reminder_check_complete now shown cs c s :
  In c cs -> id c = Some s -> s <> "" -> s ∉ shown -> due date_ms now c = true ->
  In (c, reminder_text c) (reminder_check date_ms now shown cs).
Proof.
  intros Hin Hid Hne Hsh Hdue. induction cs as [|c' cs IH]; simpl; [done|].
  destruct Hin as [->|Hin].
  - rewrite Hid, Hdue. apply String.eqb_neq in Hne. rewrite Hne.
    rewrite bool_decide_eq_false_2 by done. simpl. by left.
  - specialize (IH Hin). destruct (id c'); [|done].
    destruct (_ && _); [by right|done].
Qed.

Lemma count_for_app s l1 l2 : count_for s (l1 ++ l2) = (count_for s l1 + count_for s l2)%nat.
Proof. unfold count_for. by rewrite List.filter_app, length_app. Qed.

Lemma count_for_zero s out :
  (forall n, In n out -> id n.1 <> Some s) -> count_for s out = 0%nat.
Proof.
  intros H. unfold count_for. induction out as [|n out IH]; simpl; [done|].
  rewrite bool_decide_eq_false_2 by (apply H; by left). apply IH. intros; apply H; by right.
Qed.

Lemma count_for_pos_in s out : (0 < count_for s out)%nat -> s ∈ fired_ids out.
Proof.
  unfold count_for, fired_ids. induction out as [|n out IH]; simpl; [lia|].
  destruct (bool_decide (id n.1 = Some s)) eqn:E.
  - apply bool_decide_eq_true in E. intros _. rewrite E. simpl. set_solver.
  - intros Hc. destruct (id n.1); simpl; [|auto]. specialize (IH Hc). set_solver.
Qed.

(** With one contact per id in the list, a tick notifies an id at most
    once, and not at all when it is already shown. *)
Lemma tick_count now shown cs s :
  NoDup (omap id cs) ->
  (count_for s (reminder_check date_ms now shown cs) <= if bool_decide (s ∈ shown) then 0 else 1)%nat.
Proof.
  intros Hnd. case_bool_decide as Hs.
  { rewrite count_for_zero; [done|]. intros n Hn Hid.
    destruct (reminder_check_sound _ _ _ _ Hn) as (s' & Hs' & _ & Hnot & _).
    rewrite Hid in Hs'. injection Hs' as <-. done. }
  induction cs as [|c cs IH]; simpl; [unfold count_for; simpl; lia|].
  simpl in Hnd. destruct (id c) as [sc|] eqn:Ei.
  2:{ by apply IH. }
  apply NoDup_cons in Hnd as [Hfresh Hnd].
  destruct (_ && _); [|by apply IH].
  unfold count_for; simpl. rewrite Ei.
  case_bool_decide as Heq; simpl; [|by apply IH].
  injection Heq as ->. fold (count_for s (reminder_check date_ms now shown cs)).
  rewrite count_for_zero; [lia|]. intros n Hn Hid.
  destruct (reminder_check_sound _ _ _ _ Hn) as (s' & _ & _ & _ & _ & Hin & _).
  apply Hfresh. apply list_elem_of_omap. exists n.1. split; [|done].
  by apply list_elem_of_In.
Qed.

Lemma StronglySorted_lookup {A} (R : A -> A -> Prop) l i j x y :
  StronglySorted R l -> l !! i = Some x -> l !! j = Some y -> (i < j)%nat -> R x y.
Proof.
  intros Hs. revert i j. induction Hs as [|a l Hs IH Hall]; intros i j Hi Hj Hij; [done|].
  destruct i as [|i], j as [|j]; simpl in *; try lia.
  - injection Hi as <-. eapply Forall_forall; [exact Hall|].
    by eapply list_elem_of_lookup_2.
  - apply (IH i j); [done|done|lia].
Qed.

(** Over a session, an id is notified at most once, and never when it
    was already shown, provided each tick's list has one contact per id. *)
Lemma run_count ticks shown s :
  Forall (fun t => NoDup (omap id t.2)) ticks ->
  (count_for s (run date_ms ticks shown) <= if bool_decide (s ∈ shown) then 0 else 1)%nat.
Proof.
  revert shown. induction ticks as [|[now cs] ts IH]; intros shown Hall; simpl.
  { unfold count_for; simpl; lia. }
  apply Forall_cons in Hall as [Hnd Hall]. simpl in Hnd.
  rewrite count_for_app.
  pose proof (tick_count now shown cs s Hnd) as Ht.
  set (out := reminder_check date_ms now shown cs) in *.
  specialize (IH (fired_ids out ∪ shown) Hall).
  case_bool_decide as Hs.
  - rewrite bool_decide_eq_true_2 in IH by set_solver. lia.
  - destruct (count_for s out) as [|k] eqn:Ec.
    + destruct (bool_decide _); lia.
    + assert (Hin : s ∈ fired_ids out) by (apply count_for_pos_in; lia).
      rewrite bool_decide_eq_true_2 in IH by set_solver. lia.
Qed.

End ClientLemmas.

(** C4: in one tick at time [now], a listed contact whose id is a
    non-empty string not yet shown is notified, with the text naming it,
    its channel and its detail, exactly when its reminder timestamp [t]
    is valid and [0 <= t - now < 60000]; every notification of the tick
    is about a listed contact with such an id. *)
Theorem reminder_tick_due date_ms now contacts shown c s :
  In c contacts -> id c = Some s -> s <> "" -> s ∉ shown ->
  (In (c, reminder_text c) (fst (tick date_ms now contacts shown)) <->
   exists t, remindDateTime date_ms c = Some t /\ (0 <= t - now < 60000)%Z) /\
  reminder_text c =
    ("Reminder: Contact " ++ name c ++ " via " ++ contactPoint c ++
     " (" ++ contactDetail c ++ ")")%string /\
  (forall n, In n (fst (tick date_ms now contacts shown)) ->
   exists s', id n.1 = Some s' /\ s' <> "" /\ (s' ∉ shown) /\ In n.1 contacts /\
     n.2 = reminder_text n.1).
Proof.
  intros Hin Hid Hne Hsh. unfold tick; simpl. split; [|split; [done|]].
  - split.
    + intros Hn. destruct (reminder_check_sound _ _ _ _ _ Hn) as (s' & _ & _ & _ & Hdue & _).
      simpl in Hdue. unfold due in Hdue.
      destruct (remindDateTime date_ms c) as [t|]; [|done].
      exists t. split; [done|]. apply andb_prop in Hdue as [H1 H2].
      apply Z.leb_le in H1. apply Z.ltb_lt in H2. lia.
    + intros (t & Ht & Hr). eapply reminder_check_complete; try done.
      unfold due. rewrite Ht. apply andb_true_intro.
      split; [apply Z.leb_le|apply Z.ltb_lt]; lia.
  - intros n Hn. destruct (reminder_check_sound _ _ _ _ _ Hn) as (s' & ?).
    exists s'. naive_solver.
Qed.

(** C5 (corrected): two listed contacts sharing an id that are both due
    in the same tick are both notified: the tick checks against the
    [shownReminders] of the previous render. *)
Lemma same_tick_duplicate_id_fires_twice :
  let c := {| id := Some "1"; name := "Ann"; contactPoint := "Email";
              contactDetail := "ann@example.com"; notes := []; dateCreated := "2025-01-01";
              remindDate := "2025-09-30"; remindTime := "12:00" |} in
  count_for "1" (run (iso_local_ms 0) [(1759233570000%Z, [c; c])] ∅) = 2%nat.
Proof. vm_compute. reflexivity. Qed.

(** C5 (amended): over a session that starts with nothing shown, if at
    every tick the listed contacts have pairwise distinct ids, each id is
    notified at most once, whatever the edits between ticks. *)
Theorem reminder_at_most_once date_ms ticks s :
  Forall (fun t => NoDup (omap id t.2)) ticks ->
  (count_for s (run date_ms ticks ∅) <= 1)%nat.
Proof.
  intros Hall. pose proof (run_count date_ms ticks ∅ s Hall) as H.
  destruct (bool_decide _); lia.
Qed.

(** C9 (corrected): with a contact whose reminder date and time do not
    form a valid date, the comparator returns [NaN] and is not
    consistent, so the order is implementation-defined; leaving the list
    as it is (what V8's sort does on this input: both comparisons it
    makes return [NaN], read as [+0]) lists the later reminder first. *)
Lemma display_sort_invalid_timestamp :
  let b := {| id := Some "2"; name := "Bob"; contactPoint := "Phone";
              contactDetail := "123"; notes := []; dateCreated := "2025-01-01";
              remindDate := "2025-10-01"; remindTime := "10:00" |} in
  let x := {| id := Some "3"; name := "Cy"; contactPoint := "Text";
              contactDetail := "555"; notes := []; dateCreated := "2025-01-01";
              remindDate := ""; remindTime := "" |} in
  let a := {| id := Some "1"; name := "Ann"; contactPoint := "Email";
              contactDetail := "ann@example.com"; notes := []; dateCreated := "2025-01-01";
              remindDate := "2025-09-01"; remindTime := "10:00" |} in
  sort_permitted (iso_local_ms 0) [b; x; a] [b; x; a] /\
  ~ ordered_by_reminder (iso_local_ms 0) [b; x; a].
Proof.
  intros b x a. split.
  - split; [apply Permutation_refl|]. intros Hv. vm_compute in Hv. discriminate.
  - intros H.
    assert (Ha : remindDateTime (iso_local_ms 0) a = Some 1756720800000%Z)
      by (vm_compute; reflexivity).
    assert (Hb : remindDateTime (iso_local_ms 0) b = Some 1759312800000%Z)
      by (vm_compute; reflexivity).
    specialize (H 2%nat 0%nat a b _ _ eq_refl eq_refl Ha Hb). lia.
Qed.

(** C9 (amended): when every listed contact has a valid reminder
    timestamp, every order [sort] may produce lists a contact with an
    earlier reminder before one with a later reminder. *)
Theorem display_sort_orders date_ms l l' :
  all_timestamps_valid date_ms l = true -> sort_permitted date_ms l l' ->
  ordered_by_reminder date_ms l'.
Proof.
  intros Hv [_ Hs]. specialize (Hs Hv).
  intros i j c1 c2 t1 t2 Hi Hj Ht1 Ht2 Hlt.
  destruct (lt_eq_lt_dec i j) as [[?| ->]|Hji]; [done| |].
  - rewrite Hi in Hj. injection Hj as ->. rewrite Ht1 in Ht2. injection Ht2 as ->. lia.
  - pose proof (StronglySorted_lookup _ _ _ _ _ _ Hs Hj Hi Hji) as Hle.
    unfold display_compare in Hle. rewrite Ht1, Ht2 in Hle. lia.
Qed.

(** * Witnesses: the theorems above at concrete inputs *)

Lemma update_id_source_witness :
  exists upd f',
    updateContact "1" [("name", JStr "Bo")]
      (JArr [JObj [("id", JStr "1"); ("name", JStr "Ann"); ("notes", JArr [])]]) =
      (Ok200 (JObj [("contact", JObj upd)]), f') /\
    loadContacts f' =
      Some (<[0%nat := upd]> [[("id", JStr "1"); ("name", JStr "Ann"); ("notes", JArr [])]]) /\
    lookup_key upd "id" =
      match lookup_key [("name", JStr "Bo")] "id" with
      | Some v => Some v
      | None => lookup_key [("id", JStr "1"); ("name", JStr "Ann"); ("notes", JArr [])] "id"
      end.
Proof.
  apply (update_id_source "1" [("name", JStr "Bo")]
           (JArr [JObj [("id", JStr "1"); ("name", JStr "Ann"); ("notes", JArr [])]])
           [[("id", JStr "1"); ("name", JStr "Ann"); ("notes", JArr [])]] 0
           [("id", JStr "1"); ("name", JStr "Ann"); ("notes", JArr [])]).
  - apply NoDup_singleton.
  - reflexivity.
  - reflexivity.
  - reflexivity.
Defined.

Lemma update_single_field_frame_witness :
  let old := [("id", JStr "1"); ("name", JStr "Ann"); ("notes", JArr [])] in
  let upd := if String.eqb "notes" "notes" && negb (is_array (Some (JStr "x"))) then old
             else obj_set old "notes" (JStr "x") in
  updateContact "1" [("notes", JStr "x")] (JArr [JObj old]) =
    (Ok200 (JObj [("contact", JObj upd)]), saveContacts (<[0%nat := upd]> [old])) /\
  loadContacts (saveContacts (<[0%nat := upd]> [old])) = Some (<[0%nat := upd]> [old]) /\
  (forall k', k' <> "notes" -> lookup_key upd k' = lookup_key old k').
Proof.
  apply (update_single_field_frame "1" (JArr [JObj [("id", JStr "1"); ("name", JStr "Ann"); ("notes", JArr [])]])
           [[("id", JStr "1"); ("name", JStr "Ann"); ("notes", JArr [])]] 0
           [("id", JStr "1"); ("name", JStr "Ann"); ("notes", JArr [])] "notes" (JStr "x"));
    reflexivity.
Defined.

Lemma create_id_minted_witness :
  let st := [("id", JStr "1759233500000"); ("name", JStr "Ann"); ("notes", JArr [])] in
  exists c f',
    createContact 1759233600000 [("name", JStr "Eve")] (JArr [JObj st]) =
      (Created201 (JObj [("contact", JObj c)]), f') /\
    loadContacts f' = Some ([st] ++ [c]) /\
    lookup_key c "id" = Some (JStr (pretty 1759233600000%N)) /\
    pretty 1759233600000%N <> "" /\
    Forall (fun c' => lookup_key c' "id" <> lookup_key c "id") [st].
Proof.
  intros st.
  destruct (create_id_minted 1759233600000 [("name", JStr "Eve")] (JArr [JObj st]) [st])
    as (c & f' & Heq & Hload & Hid & Hne & Hfresh).
  - apply NoDup_singleton.
  - reflexivity.
  - exists c, f'. split; [exact Heq|]. split; [exact Hload|]. split; [exact Hid|].
    split; [exact Hne|]. apply Hfresh.
    + reflexivity.
    + apply Forall_cons_2; [vm_compute; reflexivity|apply Forall_nil_2].
Defined.

Lemma update_missing_id_witness :
  updateContact "9" [("name", JStr "X")]
    (JArr [JObj [("id", JStr "1"); ("notes", JArr [])]]) =
  (NotFound404, JArr [JObj [("id", JStr "1"); ("notes", JArr [])]]).
Proof.
  apply (update_missing_id "9" [("name", JStr "X")]
           (JArr [JObj [("id", JStr "1"); ("notes", JArr [])]])
           [[("id", JStr "1"); ("notes", JArr [])]]).
  - reflexivity.
  - repeat constructor.
Defined.

Lemma delete_idempotent_witness :
  (forall id' f', fst (deleteContact id' f') <> NotFound404) /\
  let kept := List.filter (fun c => negb (id_is "1" c))
                [[("id", JStr "1"); ("notes", JArr [])]; [("id", JStr "2"); ("notes", JArr [])]] in
  deleteContact "1" (JArr [JObj [("id", JStr "1"); ("notes", JArr [])];
                           JObj [("id", JStr "2"); ("notes", JArr [])]]) =
    (Ok200 (JObj [("message", JStr "Deleted")]), saveContacts kept) /\
  loadContacts (saveContacts kept) = Some kept /\
  Forall (fun c => id_is "1" c = false) kept /\
  (forall c, In c [[("id", JStr "1"); ("notes", JArr [])]; [("id", JStr "2"); ("notes", JArr [])]] ->
     id_is "1" c = false -> In c kept) /\
  deleteContact "1" (saveContacts kept) =
    (Ok200 (JObj [("message", JStr "Deleted")]), saveContacts kept).
Proof.
  apply (delete_idempotent "1"
           (JArr [JObj [("id", JStr "1"); ("notes", JArr [])];
                  JObj [("id", JStr "2"); ("notes", JArr [])]])).
  reflexivity.
Defined.

Lemma notes_always_array_witness :
  let l := [JObj [("id", JStr "1"); ("notes", JStr "x")];
            JObj [("id", JStr "2"); ("notes", JArr [JStr "n"])];
            JObj [("id", JStr "3")]; JStr "ab"] in
  (exists cs, loadContacts (JArr l) = Some cs /\
     Forall2 (fun v c =>
       lookup_key c "notes" =
         match v with
         | JObj co => if is_array (lookup_key co "notes") then lookup_key co "notes"
                      else Some (JArr [])
         | _ => Some (JArr [])
         end) l cs) /\
  (exists c, response_contact (fst (createContact 7 [("notes", JNull)] (JArr l))) = Some c /\
     lookup_key c "notes" = Some (JArr []) /\
     stored_notes_arrays (snd (createContact 7 [("notes", JNull)] (JArr l)))) /\
  stored_notes_arrays (snd (updateContact "1" [("notes", JStr "y")] (JArr l))) /\
  stored_notes_arrays (snd (deleteContact "2" (JArr l))).
Proof.
  intros l. destruct notes_always_array as (HA & _ & HC & HD & HE).
  split; [|split; [|split]].
  - eexists. split; [reflexivity|]. apply HA. reflexivity.
  - eexists. split; [reflexivity|].
    apply (HC 7%N [("notes", JNull)] (JArr l)). reflexivity.
  - eapply proj2, HD. reflexivity.
  - apply HE. discriminate.
Defined.

Lemma create_body_id_kept_witness :
  exists c f',
    createContact 1759233600000 [("id", JStr "42")] (JArr []) =
      (Created201 (JObj [("contact", JObj c)]), f') /\
    loadContacts f' = Some ([] ++ [c]) /\
    lookup_key c "id" = Some (JStr "42").
Proof.
  apply (create_body_id_kept 1759233600000 [("id", JStr "42")] (JArr []) []).
  - apply NoDup_singleton.
  - reflexivity.
  - reflexivity.
Defined.

Lemma reminder_tick_due_witness :
  let c := {| id := Some "1"; name := "Ann"; contactPoint := "Email";
              contactDetail := "ann@example.com"; notes := []; dateCreated := "2025-01-01";
              remindDate := "2025-09-30"; remindTime := "12:00" |} in
  (In (c, reminder_text c) (fst (tick (iso_local_ms 0) 1759233570000 [c] ∅)) <->
   exists t, remindDateTime (iso_local_ms 0) c = Some t /\ (0 <= t - 1759233570000 < 60000)%Z) /\
  reminder_text c =
    ("Reminder: Contact " ++ name c ++ " via " ++ contactPoint c ++
     " (" ++ contactDetail c ++ ")")%string /\
  (forall n, In n (fst (tick (iso_local_ms 0) 1759233570000 [c] ∅)) ->
   exists s', id n.1 = Some s' /\ s' <> "" /\ (s' ∉ (∅ : gset string)) /\ In n.1 [c] /\
     n.2 = reminder_text n.1).
Proof.
  intros c. apply (reminder_tick_due (iso_local_ms 0) 1759233570000 [c] ∅ c "1").
  - by left.
  - reflexivity.
  - discriminate.
  - apply not_elem_of_empty.
Defined.

Lemma reminder_at_most_once_witness :
  let c := {| id := Some "1"; name := "Ann"; contactPoint := "Email";
              contactDetail := "ann@example.com"; notes := []; dateCreated := "2025-01-01";
              remindDate := "2025-09-30"; remindTime := "12:00" |} in
  let c' := {| id := Some "1"; name := "Ann"; contactPoint := "Email";
               contactDetail := "ann@example.com"; notes := []; dateCreated := "2025-01-01";
               remindDate := "2025-09-30"; remindTime := "12:01" |} in
  (count_for "1" (run (iso_local_ms 0)
                    [(1759233570000%Z, [c]); (1759233575000%Z, [c]); (1759233630000%Z, [c'])] ∅)
   <= 1)%nat.
Proof.
  intros c c'. apply reminder_at_most_once.
  repeat apply Forall_cons_2; try apply Forall_nil_2; simpl; apply NoDup_singleton.
Defined.

Lemma display_sort_orders_witness :
  let a := {| id := Some "1"; name := "Ann"; contactPoint := "Email";
              contactDetail := "ann@example.com"; notes := []; dateCreated := "2025-01-01";
              remindDate := "2025-09-01"; remindTime := "10:00" |} in
  let b := {| id := Some "2"; name := "Bob"; contactPoint := "Phone";
              contactDetail := "123"; notes := []; dateCreated := "2025-01-01";
              remindDate := "2025-10-01"; remindTime := "10:00" |} in
  ordered_by_reminder (iso_local_ms 0) [a; b].
Proof.
  intros a b. apply (display_sort_orders (iso_local_ms 0) [b; a] [a; b]).
  - vm_compute. reflexivity.
  - split.
    + apply Permutation_swap.
    + intros _. repeat constructor.
      assert (Ha : remindDateTime (iso_local_ms 0) a = Some 1756720800000%Z)
        by (vm_compute; reflexivity).
      assert (Hb : remindDateTime (iso_local_ms 0) b = Some 1759312800000%Z)
        by (vm_compute; reflexivity).
      unfold display_compare. rewrite Ha, Hb. lia.
Defined.

(** * Further properties of the router and the client *)

Lemma create_normalized (now : N) body :
  normalized (obj_set (spread [("id", JStr (pretty now))] body) "notes"
       (if is_array (lookup_key body "notes")
        then default (JArr []) (lookup_key body "notes") else JArr [])).
Proof.
  split.
  - apply obj_set_distinct, spread_distinct. apply NoDup_singleton.
  - rewrite lookup_obj_set_eq. by destruct (lookup_key body "notes") as [[]|].
Qed.

Lemma find_index_app_None {A} (p : A -> bool) l x :
  find_index p l = None -> p x = true -> find_index p (l ++ [x]) = Some (length l).
Proof.
  induction l as [|y l IH]; simpl; [by intros _ ->|].
  destruct (p y); [done|]. destruct (find_index p l); [done|].
  intros _ Hx. by rewrite IH.
Qed.

Lemma insert_last {A} (l : list A) x y : <[length l := y]> (l ++ [x]) = l ++ [y].
Proof. rewrite <- (Nat.add_0_r (length l)). by rewrite insert_app_r. Qed.

(** Saving the contacts just loaded and loading again gives them back:
    the file format is stable under the router's load/save cycle. *)
Theorem load_save_roundtrip f cs :
  loadContacts f = Some cs -> loadContacts (saveContacts cs) = Some cs.
Proof. intros H. apply load_save. by eapply load_normalized. Qed.


(** [GET /] after [POST /] lists the contacts stored before, in their
    order, followed by the contact the [POST] returned. *)
Theorem list_after_create now body f cs :
  loadContacts f = Some cs ->
  exists c,
    response_contact (fst (createContact now body f)) = Some c /\
    listContacts f = Ok200 (JArr (map JObj cs)) /\
    listContacts (snd (createContact now body f)) = Ok200 (JArr (map JObj (cs ++ [c]))).
Proof.
  intros Hload. unfold createContact. rewrite Hload. eexists. split; [reflexivity|].
  unfold listContacts. rewrite Hload. split; [done|]. cbn [snd].
  rewrite load_save; [done|]. apply Forall_app. split.
  - by eapply load_normalized.
  - apply Forall_singleton, create_normalized.
Qed.

(** The client's [fetchContacts] applied to the [GET /] response yields
    exactly the contacts the server loads: its own normalisation of
    [notes] changes nothing, and a 500 leaves the cache as it was. *)
Theorem fetch_after_list f : fetchContacts (listContacts f) = loadContacts f.
Proof.
  unfold listContacts. destruct (loadContacts f) as [cs|] eqn:E; [|done].
  cbn [fetchContacts]. apply normalize_all_JObj. by eapply load_normalized.
Qed.

(** The merge law of [PUT /:id] for any body with distinct keys: [notes]
    becomes the body's [notes] when that is an array and stays otherwise;
    every other field is the body's when the body has it and the stored
    one otherwise. *)
Theorem update_merge_law id body f cs idx old :
  keys_distinct body ->
  loadContacts f = Some cs -> find_index (id_is id) cs = Some idx -> cs !! idx = Some old ->
  exists upd,
    response_contact (fst (updateContact id body f)) = Some upd /\
    loadContacts (snd (updateContact id body f)) = Some (<[idx := upd]> cs) /\
    lookup_key upd "notes" =
      (if is_array (lookup_key body "notes") then lookup_key body "notes"
       else lookup_key old "notes") /\
    (forall k, k <> "notes" ->
       lookup_key upd k =
         match lookup_key body k with Some v => Some v | None => lookup_key old k end).
Proof.
  intros Hb Hload Hfind Hold.
  destruct (update_spec id body f cs idx old Hload Hfind Hold) as (Heq & Hsave & [Hd Ha]).
  rewrite Heq. exists (merge old body). simpl. split; [done|]. split; [done|]. split.
  - unfold merge. rewrite lookup_obj_set_eq.
    destruct (lookup_key body "notes") as [[]|]; simpl; try done;
    by destruct (lookup_key old "notes") as [[]|].
  - intros k Hk. unfold merge. rewrite lookup_obj_set_ne by done.
    rewrite lookup_spread by done. by rewrite spread_nil_distinct.
Qed.

(** [PUT /:id] with an empty body answers with the stored contact as it
    is and stores the same contacts again. *)
Theorem update_empty_body id f cs idx old :
  loadContacts f = Some cs -> find_index (id_is id) cs = Some idx -> cs !! idx = Some old ->
  updateContact id [] f = (Ok200 (JObj [("contact", JObj old)]), saveContacts cs) /\
  loadContacts (saveContacts cs) = Some cs.
Proof.
  intros Hload Hfind Hold.
  destruct (update_spec id [] f cs idx old Hload Hfind Hold) as (Heq & Hsave & [Hd Ha]).
  assert (Hm : merge old [] = old).
  { unfold merge. simpl. rewrite spread_nil_distinct by done.
    destruct (lookup_key old "notes") as [[]|] eqn:E; try done. by apply obj_set_same. }
  rewrite Hm, list_insert_id in Heq, Hsave by done. done.
Qed.

(** [PUT /:id] rewrites one position only, the first contact with that
    id: the stored sequence keeps its length, and every other position,
    including later contacts with the same id, is unchanged. *)
Theorem update_first_match_only id body f cs idx old :
  loadContacts f = Some cs -> find_index (id_is id) cs = Some idx -> cs !! idx = Some old ->
  exists cs',
    loadContacts (snd (updateContact id body f)) = Some cs' /\
    length cs' = length cs /\
    (forall j, j <> idx -> cs' !! j = cs !! j).
Proof.
  intros Hload Hfind Hold.
  destruct (update_spec id body f cs idx old Hload Hfind Hold) as (Heq & Hsave & _).
  rewrite Heq. simpl. eexists. split; [exact Hsave|]. split.
  - apply length_insert.
  - intros j Hj. by apply list_lookup_insert_ne.
Qed.

(** [DELETE /:id] for an id that no stored contact has stores the same
    contacts again. *)
Theorem delete_absent_id id f cs :
  loadContacts f = Some cs -> Forall (fun c => id_is id c = false) cs ->
  loadContacts (snd (deleteContact id f)) = Some cs.
Proof.
  intros Hload Hnone. unfold deleteContact. rewrite Hload. cbn [snd].
  assert (Hf : List.filter (fun c => negb (id_is id c)) cs = cs).
  { clear Hload. induction Hnone as [|c cs Hc Hn IH]; simpl; [done|]. by rewrite Hc, IH. }
  rewrite Hf. apply load_save. by eapply load_normalized.
Qed.

(** [POST /] copies the body: every field other than [id] and [notes] of
    the new contact is the body's (absent when the body lacks it); [notes]
    is the body's array, or empty when the body has none or a non-array. *)
Theorem create_copies_body now body f cs :
  keys_distinct body -> loadContacts f = Some cs ->
  exists c,
    response_contact (fst (createContact now body f)) = Some c /\
    lookup_key c "notes" =
      Some (if is_array (lookup_key body "notes")
            then default (JArr []) (lookup_key body "notes") else JArr []) /\
    (forall k, k <> "id" -> k <> "notes" -> lookup_key c k = lookup_key body k).
Proof.
  intros Hb Hload. unfold createContact. rewrite Hload. eexists. split; [reflexivity|].
  split; [apply lookup_obj_set_eq|].
  intros k Hid Hn. rewrite lookup_obj_set_ne by done. rewrite lookup_spread by done.
  destruct (lookup_key body k); [reflexivity|]. cbn [lookup_key].
  destruct (String.eqb_spec "id" k); [congruence|reflexivity].
Qed.

(** A contact created without an [id] in the body, at a time whose
    decimal string no stored id equals, can then be updated through
    [PUT /:id] with that id: the update finds the new contact, the last
    one, and rewrites it alone. *)
Theorem create_then_update now body patch f cs :
  keys_distinct body -> lookup_key body "id" = None ->
  loadContacts f = Some cs -> Forall (fun c => id_is (pretty now) c = false) cs ->
  exists c,
    response_contact (fst (createContact now body f)) = Some c /\
    updateContact (pretty now) patch (snd (createContact now body f)) =
      (Ok200 (JObj [("contact", JObj (merge c patch))]),
       saveContacts (cs ++ [merge c patch])).
Proof.
  intros Hb Hnone Hload Hfresh.
  destruct (create_spec now body f cs Hb Hload) as (c & Heq & Hsave & Hn & Hid).
  rewrite Heq. exists c. split; [done|]. cbn [snd].
  assert (Hfind : find_index (id_is (pretty now)) (cs ++ [c]) = Some (length cs)).
  { apply find_index_app_None.
    - by apply find_index_None.
    - unfold id_is. rewrite Hid, Hnone. apply String.eqb_refl. }
  assert (Hlast : (cs ++ [c]) !! length cs = Some c).
  { rewrite lookup_app_r by lia. by rewrite Nat.sub_diag. }
  destruct (update_spec _ patch _ _ _ _ Hsave Hfind Hlast) as (Hu & _).
  by rewrite Hu, insert_last.
Qed.

(** Likewise, deleting that id right after the [POST] gives back the
    contacts stored before it. *)
Theorem create_then_delete now body f cs :
  keys_distinct body -> lookup_key body "id" = None ->
  loadContacts f = Some cs -> Forall (fun c => id_is (pretty now) c = false) cs ->
  loadContacts (snd (deleteContact (pretty now) (snd (createContact now body f)))) = Some cs.
Proof.
  intros Hb Hnone Hload Hfresh.
  destruct (create_spec now body f cs Hb Hload) as (c & Heq & Hsave & Hn & Hid).
  rewrite Heq. cbn [snd]. unfold deleteContact. rewrite Hsave. cbn [snd].
  rewrite List.filter_app. simpl.
  assert (Hc : id_is (pretty now) c = true).
  { unfold id_is. rewrite Hid, Hnone. apply String.eqb_refl. }
  rewrite Hc. simpl. rewrite app_nil_r.
  assert (Hf : List.filter (fun c => negb (id_is (pretty now) c)) cs = cs).
  { clear Hload Heq Hsave. induction Hfresh as [|c' cs Hc' Hn' IH]; simpl; [done|].
    by rewrite Hc', IH. }
  rewrite Hf. apply load_save. by eapply load_normalized.
Qed.

Lemma handleUpdateContact_absent (cache : list ContactData) contact :
  Forall (fun c => id c <> id contact) cache -> handleUpdateContact contact cache = cache.
Proof.
  intros Hall. unfold handleUpdateContact.
  induction Hall as [|c cache Hc Hall IH]; simpl; [done|].
  rewrite bool_decide_eq_false_2 by done. by f_equal.
Qed.

Lemma omap_id_fresh (cache : list ContactData) s contact :
  s ∉ omap id cache -> id contact = Some s -> Forall (fun c => id c <> id contact) cache.
Proof.
  intros Hs Hc. apply Forall_forall. intros c Hin Heq. apply Hs, list_elem_of_omap.
  exists c. split; [first [done|by apply list_elem_of_In]|congruence].
Qed.

(** [handleUpdateContact]: when the cached ids are distinct, replacing a
    contact whose id is cached overwrites exactly its position; when no
    cached contact has the contact's id (absent ids included), the cache
    is unchanged. *)
Theorem handleUpdateContact_replaces (cache : list ContactData) (contact : ContactData) :
  (forall i old s,
     NoDup (omap id cache) -> cache !! i = Some old -> id old = Some s -> id contact = Some s ->
     handleUpdateContact contact cache = <[i := contact]> cache) /\
  (Forall (fun c => id c <> id contact) cache -> handleUpdateContact contact cache = cache).
Proof.
  split; [|apply handleUpdateContact_absent].
  intros i old s Hnd Hi Hold Hc.
  revert i Hi. induction cache as [|c cache IH]; intros i Hi; [done|].
  simpl in Hnd. destruct i as [|i]; simpl in Hi |- *.
  - injection Hi as ->. rewrite Hold in Hnd. apply NoDup_cons in Hnd as [Hfresh _].
    unfold handleUpdateContact. simpl.
    rewrite bool_decide_eq_true_2 by congruence. f_equal.
    by apply handleUpdateContact_absent, (omap_id_fresh _ s).
  - assert (Hi' : NoDup (omap id cache)).
    { destruct (id c); [by apply NoDup_cons in Hnd as [_ ?]|done]. }
    assert (Hne : id c <> id contact).
    { intros Heq. destruct (id c) as [sc|] eqn:Ec; [|congruence].
      rewrite Hc in Heq. injection Heq as ->. apply NoDup_cons in Hnd as [Hfresh _].
      apply Hfresh, list_elem_of_omap. exists old. split; [|done].
      by eapply list_elem_of_lookup_2. }
    unfold handleUpdateContact in *. simpl.
    rewrite bool_decide_eq_false_2 by done. f_equal. by apply IH.
Qed.

Section Session.
Variable date_ms : string -> option Z.

Lemma count_for_In s out n : In n out -> id n.1 = Some s -> (0 < count_for s out)%nat.
Proof.
  unfold count_for. induction out as [|n' out IH]; simpl; [done|].
  intros [->|Hin] Hid.
  - rewrite bool_decide_eq_true_2 by done. simpl. lia.
  - specialize (IH Hin Hid). case_bool_decide; simpl; lia.
Qed.

Lemma fired_ids_count s out : s ∈ fired_ids out -> (0 < count_for s out)%nat.
Proof.
  unfold fired_ids. intros Hs. apply elem_of_list_to_set, list_elem_of_omap in Hs
    as (n & Hin & Hid).
  eapply count_for_In; [|exact Hid]. by apply list_elem_of_In.
Qed.

Lemma run_fires ticks shown now cs c s :
  In (now, cs) ticks -> In c cs -> id c = Some s -> s <> "" -> s ∉ shown ->
  due date_ms now c = true -> (0 < count_for s (run date_ms ticks shown))%nat.
Proof.
  revert shown. induction ticks as [|[now' cs'] ts IH]; intros shown Hin Hc Hid Hne Hsh Hdue;
    [done|].
  simpl. rewrite count_for_app.
  destruct Hin as [Heq|Hin].
  - injection Heq as -> ->.
    pose proof (reminder_check_complete date_ms now shown cs c s Hc Hid Hne Hsh Hdue) as H.
    pose proof (count_for_In s _ _ H Hid). lia.
  - set (out := reminder_check date_ms now' shown cs').
    destruct (decide (s ∈ fired_ids out)) as [Hf|Hf].
    + pose proof (fired_ids_count s out Hf). lia.
    + assert (s ∉ fired_ids out ∪ shown) by set_solver.
      pose proof (IH (fired_ids out ∪ shown) Hin Hc Hid Hne ltac:(done) Hdue). lia.
Qed.

(** Reminder checker, over a session starting with nothing shown: a
    contact with a non-empty id that is listed and due at some tick is
    notified, whatever the other ticks list; and exactly once when every
    tick lists one contact per id. *)
Theorem session_due_notified_once ticks now cs c s :
  In (now, cs) ticks -> In c cs -> id c = Some s -> s <> "" ->
  due date_ms now c = true ->
  (0 < count_for s (run date_ms ticks ∅))%nat /\
  (Forall (fun t => NoDup (omap id t.2)) ticks -> count_for s (run date_ms ticks ∅) = 1%nat).
Proof.
  intros Hin Hc Hid Hne Hdue.
  pose proof (run_fires ticks ∅ now cs c s Hin Hc Hid Hne ltac:(set_solver) Hdue) as Hpos.
  split; [exact Hpos|]. intros Hall.
  pose proof (run_count date_ms ticks ∅ s Hall) as Hle.
  rewrite bool_decide_eq_false_2 in Hle by set_solver. lia.
Qed.

(** Reminder checker, over any session: every notification is about a
    contact listed at some tick, with a non-empty id, due at that tick
    (its timestamp [t] valid with [0 <= t - now < 60000]), and its text is
    the reminder text of that contact. *)
Theorem session_notifications_sound ticks shown n :
  In n (run date_ms ticks shown) ->
  exists now cs s t,
    In (now, cs) ticks /\ In n.1 cs /\ id n.1 = Some s /\ s <> "" /\
    remindDateTime date_ms n.1 = Some t /\ (0 <= t - now < 60000)%Z /\
    n.2 = reminder_text n.1.
Proof.
  revert shown. induction ticks as [|[now cs] ts IH]; intros shown; simpl; [done|].
  intros [Hn|Hn]%in_app_or.
  - destruct (reminder_check_sound date_ms now shown cs n Hn)
      as (s & Hid & Hne & _ & Hdue & Hin & Htxt).
    unfold due in Hdue. destruct (remindDateTime date_ms n.1) as [t|] eqn:Et; [|done].
    apply andb_prop in Hdue as [H1 H2]. apply Z.leb_le in H1. apply Z.ltb_lt in H2.
    exists now, cs, s, t. repeat split; auto; lia.
  - destruct (IH _ Hn) as (now' & cs' & s & t & Hin & ?). exists now', cs', s, t.
    split; [by right|done].
Qed.

End Session.


(** [handleNewNote] against the router: when the contact's id reaches the
    route verbatim and is stored, the stored record at its position
    becomes the client's copy with the note appended to the client's
    notes (the notes stored on the server are replaced, not extended),
    other fields the client's where it has them and the stored ones
    otherwise. *)
Theorem new_note_appended contact note f cs idx old s ns :
  keys_distinct contact ->
  lookup_key contact "id" = Some (JStr s) -> url_safe s = true ->
  lookup_key contact "notes" = Some (JArr ns) ->
  loadContacts f = Some cs -> find_index (id_is s) cs = Some idx -> cs !! idx = Some old ->
  exists r f' upd,
    handleNewNote contact note f = Some (r, f') /\
    response_contact r = Some upd /\
    loadContacts f' = Some (<[idx := upd]> cs) /\
    lookup_key upd "notes" = Some (JArr (ns ++ [note])) /\
    (forall k, k <> "notes" ->
       lookup_key upd k =
         match lookup_key contact k with Some v => Some v | None => lookup_key old k end).
Proof.
  intros Hd Hid Hu Hns Hload Hfind Hold. unfold handleNewNote. rewrite Hid, Hns, Hu.
  set (body := obj_set (spread [] contact) "notes" (JArr (ns ++ [note]))).
  destruct (update_spec s body f cs idx old Hload Hfind Hold) as (Heq & Hsave & [Hod _]).
  rewrite Heq. do 3 eexists. split; [reflexivity|]. split; [reflexivity|].
  split; [exact Hsave|]. split.
  - unfold merge. rewrite lookup_obj_set_eq. subst body. by rewrite lookup_obj_set_eq.
  - intros k Hk. unfold merge. rewrite lookup_obj_set_ne by done.
    assert (Hbd : keys_distinct body) by (apply obj_set_distinct, spread_distinct; constructor).
    rewrite lookup_spread by done. rewrite spread_nil_distinct by done.
    subst body. rewrite lookup_obj_set_ne by done. by rewrite spread_nil_distinct.
Qed.

(** [toggleNoteForm]: toggling flips whether the form of [id] is open
    ([noteForms[id]] truthy, inherited properties included) and leaves
    every other entry as it was; toggling twice restores whether it is
    open. *)
Theorem toggleNoteForm_flip id forms :
  keys_distinct forms ->
  form_open (toggleNoteForm id forms) id = negb (form_open forms id) /\
  (forall k, k <> id -> lookup_key (toggleNoteForm id forms) k = lookup_key forms k) /\
  form_open (toggleNoteForm id (toggleNoteForm id forms)) id = form_open forms id.
Proof.
  intros Hd. unfold form_open at 1 3, toggleNoteForm. rewrite !lookup_obj_set_eq. simpl.
  split; [done|]. split.
  - intros k Hk. rewrite lookup_obj_set_ne by done. by rewrite spread_nil_distinct.
  - unfold form_open at 1. rewrite lookup_obj_set_eq. simpl. by rewrite negb_involutive.
Qed.

(** ** Instances of the further properties *)

Lemma load_save_roundtrip_witness :
  loadContacts (saveContacts [[("id", JStr "1"); ("name", JStr "Ann"); ("notes", JArr [])]]) =
    Some [[("id", JStr "1"); ("name", JStr "Ann"); ("notes", JArr [])]].
Proof.
  apply (load_save_roundtrip (JArr [JObj [("id", JStr "1"); ("name", JStr "Ann")]])).
  reflexivity.
Defined.


Lemma list_after_create_witness :
  exists c,
    response_contact (fst (createContact 7 [("name", JStr "Bo")]
      (JArr [JObj [("id", JStr "1"); ("name", JStr "Ann"); ("notes", JArr [])]]))) = Some c /\
    listContacts (JArr [JObj [("id", JStr "1"); ("name", JStr "Ann"); ("notes", JArr [])]]) =
      Ok200 (JArr (map JObj [[("id", JStr "1"); ("name", JStr "Ann"); ("notes", JArr [])]])) /\
    listContacts (snd (createContact 7 [("name", JStr "Bo")]
      (JArr [JObj [("id", JStr "1"); ("name", JStr "Ann"); ("notes", JArr [])]]))) =
      Ok200 (JArr (map JObj ([[("id", JStr "1"); ("name", JStr "Ann"); ("notes", JArr [])]] ++ [c]))).
Proof.
  apply (list_after_create 7 [("name", JStr "Bo")]
           (JArr [JObj [("id", JStr "1"); ("name", JStr "Ann"); ("notes", JArr [])]])).
  reflexivity.
Defined.

Lemma update_merge_law_witness :
  let old := [("id", JStr "1"); ("name", JStr "Ann"); ("notes", JArr [JStr "n1"])] in
  let body := [("name", JStr "Bo"); ("notes", JNull)] in
  exists upd,
    response_contact (fst (updateContact "1" body (JArr [JObj old]))) = Some upd /\
    loadContacts (snd (updateContact "1" body (JArr [JObj old]))) = Some (<[0%nat := upd]> [old]) /\
    lookup_key upd "notes" =
      (if is_array (lookup_key body "notes") then lookup_key body "notes"
       else lookup_key old "notes") /\
    (forall k, k <> "notes" ->
       lookup_key upd k =
         match lookup_key body k with Some v => Some v | None => lookup_key old k end).
Proof.
  intros old body. apply (update_merge_law "1" body (JArr [JObj old]) [old] 0 old).
  - apply (bool_decide_unpack _). vm_compute. reflexivity.
  - reflexivity.
  - reflexivity.
  - reflexivity.
Defined.

Lemma update_empty_body_witness :
  let old := [("id", JStr "1"); ("name", JStr "Ann"); ("notes", JArr [])] in
  updateContact "1" [] (JArr [JObj old]) = (Ok200 (JObj [("contact", JObj old)]), saveContacts [old]) /\
  loadContacts (saveContacts [old]) = Some [old].
Proof.
  intros old. apply (update_empty_body "1" (JArr [JObj old]) [old] 0 old).
  - reflexivity.
  - reflexivity.
  - reflexivity.
Defined.

Lemma update_first_match_only_witness :
  let a := [("id", JStr "1"); ("name", JStr "Ann"); ("notes", JArr [])] in
  let b := [("id", JStr "2"); ("name", JStr "Bob"); ("notes", JArr [])] in
  exists cs',
    loadContacts (snd (updateContact "2" [("name", JStr "Bo")] (JArr [JObj a; JObj b]))) = Some cs' /\
    length cs' = length [a; b] /\
    (forall j, j <> 1%nat -> cs' !! j = [a; b] !! j).
Proof.
  intros a b. apply (update_first_match_only "2" [("name", JStr "Bo")] (JArr [JObj a; JObj b])
                       [a; b] 1 b).
  - reflexivity.
  - reflexivity.
  - reflexivity.
Defined.

Lemma delete_absent_id_witness :
  let a := [("id", JStr "1"); ("name", JStr "Ann"); ("notes", JArr [])] in
  loadContacts (snd (deleteContact "2" (JArr [JObj a]))) = Some [a].
Proof.
  intros a. apply (delete_absent_id "2" (JArr [JObj a]) [a]).
  - reflexivity.
  - apply Forall_cons_2; [reflexivity|apply Forall_nil_2].
Defined.

Lemma create_copies_body_witness :
  let body := [("name", JStr "Bo"); ("notes", JStr "x")] in
  exists c,
    response_contact (fst (createContact 7 body (JArr []))) = Some c /\
    lookup_key c "notes" =
      Some (if is_array (lookup_key body "notes")
            then default (JArr []) (lookup_key body "notes") else JArr []) /\
    (forall k, k <> "id" -> k <> "notes" -> lookup_key c k = lookup_key body k).
Proof.
  intros body. apply (create_copies_body 7 body (JArr []) []).
  - apply (bool_decide_unpack _). vm_compute. reflexivity.
  - reflexivity.
Defined.

Lemma create_then_update_witness :
  let a := [("id", JStr "1"); ("name", JStr "Ann"); ("notes", JArr [])] in
  exists c,
    response_contact (fst (createContact 7 [("name", JStr "Bo")] (JArr [JObj a]))) = Some c /\
    updateContact (pretty 7%N) [("name", JStr "Cy")]
        (snd (createContact 7 [("name", JStr "Bo")] (JArr [JObj a]))) =
      (Ok200 (JObj [("contact", JObj (merge c [("name", JStr "Cy")]))]),
       saveContacts ([a] ++ [merge c [("name", JStr "Cy")]])).
Proof.
  intros a. apply (create_then_update 7 [("name", JStr "Bo")] [("name", JStr "Cy")]
                     (JArr [JObj a]) [a]).
  - apply NoDup_singleton.
  - reflexivity.
  - reflexivity.
  - apply Forall_cons_2; [vm_compute; reflexivity|apply Forall_nil_2].
Defined.

Lemma create_then_delete_witness :
  let a := [("id", JStr "1"); ("name", JStr "Ann"); ("notes", JArr [])] in
  loadContacts (snd (deleteContact (pretty 7%N)
    (snd (createContact 7 [("name", JStr "Bo")] (JArr [JObj a]))))) = Some [a].
Proof.
  intros a. apply (create_then_delete 7 [("name", JStr "Bo")] (JArr [JObj a]) [a]).
  - apply NoDup_singleton.
  - reflexivity.
  - reflexivity.
  - apply Forall_cons_2; [vm_compute; reflexivity|apply Forall_nil_2].
Defined.

Lemma handleUpdateContact_replaces_witness :
  let a := {| id := Some "1"; name := "Ann"; contactPoint := "Email";
              contactDetail := "ann@example.com"; notes := []; dateCreated := "2025-01-01";
              remindDate := "2025-09-30"; remindTime := "12:00" |} in
  let b := {| id := Some "2"; name := "Bob"; contactPoint := "Phone";
              contactDetail := "123"; notes := []; dateCreated := "2025-01-01";
              remindDate := "2025-10-01"; remindTime := "10:00" |} in
  let b' := {| id := Some "2"; name := "Bob"; contactPoint := "Text";
               contactDetail := "456"; notes := []; dateCreated := "2025-01-01";
               remindDate := "2025-10-01"; remindTime := "10:00" |} in
  handleUpdateContact b' [a; b] = <[1%nat := b']> [a; b] /\
  handleUpdateContact {| id := None; name := "Cy"; contactPoint := "Text";
                         contactDetail := "555"; notes := []; dateCreated := "2025-01-01";
                         remindDate := ""; remindTime := "" |} [a; b] = [a; b].
Proof.
  intros a b b'. split.
  - apply (proj1 (handleUpdateContact_replaces [a; b] b') 1 b "2").
    + apply (bool_decide_unpack _). vm_compute. reflexivity.
    + reflexivity.
    + reflexivity.
    + reflexivity.
  - apply (proj2 (handleUpdateContact_replaces [a; b] _)).
    apply Forall_cons_2; [discriminate|apply Forall_cons_2; [discriminate|apply Forall_nil_2]].
Defined.

Lemma session_due_notified_once_witness :
  let c := {| id := Some "1"; name := "Ann"; contactPoint := "Email";
              contactDetail := "ann@example.com"; notes := []; dateCreated := "2025-01-01";
              remindDate := "2025-09-30"; remindTime := "12:00" |} in
  (0 < count_for "1" (run (iso_local_ms 0)
                        [(1759233570000%Z, [c]); (1759233575000%Z, [c])] ∅))%nat /\
  count_for "1" (run (iso_local_ms 0)
                   [(1759233570000%Z, [c]); (1759233575000%Z, [c])] ∅) = 1%nat.
Proof.
  intros c.
  destruct (session_due_notified_once (iso_local_ms 0)
              [(1759233570000%Z, [c]); (1759233575000%Z, [c])] 1759233575000 [c] c "1")
    as [Hpos Hone].
  - right. left. reflexivity.
  - left. reflexivity.
  - reflexivity.
  - discriminate.
  - vm_compute. reflexivity.
  - split; [exact Hpos|]. apply Hone.
    apply Forall_cons_2; [apply NoDup_singleton|].
    apply Forall_cons_2; [apply NoDup_singleton|apply Forall_nil_2].
Defined.

Lemma session_notifications_sound_witness :
  let c := {| id := Some "1"; name := "Ann"; contactPoint := "Email";
              contactDetail := "ann@example.com"; notes := []; dateCreated := "2025-01-01";
              remindDate := "2025-09-30"; remindTime := "12:00" |} in
  exists now cs s t,
    In (now, cs) [(1759233570000%Z, [c])] /\ In c cs /\ id c = Some s /\ s <> "" /\
    remindDateTime (iso_local_ms 0) c = Some t /\ (0 <= t - now < 60000)%Z /\
    reminder_text c = reminder_text c.
Proof.
  intros c.
  apply (session_notifications_sound (iso_local_ms 0) [(1759233570000%Z, [c])] ∅
           (c, reminder_text c)).
  vm_compute. left. reflexivity.
Defined.


Lemma new_note_appended_witness :
  let a := [("id", JStr "1"); ("name", JStr "Ann"); ("notes", JArr [JStr "n1"])] in
  let cl := [("id", JStr "1"); ("name", JStr "Ann"); ("notes", JArr [])] in
  exists r f' upd,
    handleNewNote cl (JStr "n2") (JArr [JObj a]) = Some (r, f') /\
    response_contact r = Some upd /\
    loadContacts f' = Some (<[0%nat := upd]> [a]) /\
    lookup_key upd "notes" = Some (JArr ([] ++ [JStr "n2"])) /\
    (forall k, k <> "notes" ->
       lookup_key upd k =
         match lookup_key cl k with Some v => Some v | None => lookup_key a k end).
Proof.
  intros a cl. apply (new_note_appended cl (JStr "n2") (JArr [JObj a]) [a] 0 a "1" []).
  - apply (bool_decide_unpack _). vm_compute. reflexivity.
  - reflexivity.
  - reflexivity.
  - reflexivity.
  - reflexivity.
  - reflexivity.
  - reflexivity.
Defined.

Lemma toggleNoteForm_flip_witness :
  let forms := [("1", JBool true)] in
  form_open (toggleNoteForm "constructor" forms) "constructor" =
    negb (form_open forms "constructor") /\
  (forall k, k <> "constructor" ->
     lookup_key (toggleNoteForm "constructor" forms) k = lookup_key forms k) /\
  form_open (toggleNoteForm "constructor" (toggleNoteForm "constructor" forms)) "constructor" =
    form_open forms "constructor".
Proof.
  intros forms. apply (toggleNoteForm_flip "constructor" forms). apply NoDup_singleton.
Defined.
